(** * devopsworkload.py: reconciliation of the local work-item cache

    A shallow embedding of the synchronisation routine of
    [src/devopsworkload.py] (lines 46-194): the sqlite table [work_items],
    the two remote calls, and [get_updated_work_items], followed by the
    properties of the routine.

    Modelling choices.
    - The table [work_items] has [Id INTEGER PRIMARY KEY] and seven nullable
      text columns: it is a finite map from the key to the other columns.
    - A pandas DataFrame is the list of its rows, in order.
    - The remote service is a snapshot taken for the duration of one
      synchronisation: the WIQL query either raises or answers a list of
      identifiers, and the work-item resource of an identifier either raises
      or answers a row.  The row is what lines 145-157 build from the field
      bag of the response; its [Id] is the [System.Id] the response carries
      (an integer, which every work-item resource of the service has), not
      the identifier that was put in the URL.
    - Every function runs in [Sync], a state monad over the table that also
      records the calls made to the outside (HTTP requests, SQL statements
      that write, streamlit messages), in order. *)

From stdpp Require Import gmap strings list fin_maps.

Open Scope Z_scope.

(** ** Data model *)

(** The seven columns of [work_items] besides the key (lines 49-58). *)
Record Cols := {
  c_WorkItemType : option string;
  c_Title : option string;
  c_AssignedTo : option string;
  c_State : option string;
  c_Tags : option string;
  c_StartDate : option string;
  c_TargetDate : option string
}.

(** A row of a DataFrame: the dictionary [row_data] of lines 146-157, and a
    row of [SELECT * FROM work_items]. *)
Record WorkItem := {
  Id : Z;
  WorkItemType : option string;
  Title : option string;
  AssignedTo : option string;
  State : option string;
  Tags : option string;
  StartDate : option string;
  TargetDate : option string
}.

Definition cols_of (row : WorkItem) : Cols :=
  {| c_WorkItemType := WorkItemType row; c_Title := Title row;
     c_AssignedTo := AssignedTo row; c_State := State row;
     c_Tags := Tags row; c_StartDate := StartDate row;
     c_TargetDate := TargetDate row |}.

Definition row_of (k : Z) (c : Cols) : WorkItem :=
  {| Id := k; WorkItemType := c_WorkItemType c; Title := c_Title c;
     AssignedTo := c_AssignedTo c; State := c_State c; Tags := c_Tags c;
     StartDate := c_StartDate c; TargetDate := c_TargetDate c |}.

Abbreviation DataFrame := (list WorkItem).
Abbreviation Table := (gmap Z Cols).

(** The remote service, as seen during one synchronisation.  [None] stands
    for a request that raised (connection error, HTTP error status, or a
    response without the expected shape). *)
Record Remote := {
  wiql : option (list Z);
  workitem : Z → option WorkItem
}.

(** What the routine does to the outside, in order of occurrence. *)
Inductive Message :=
| NoNewWorkItems
| Downloading (n : nat).

Inductive Event :=
| HttpPostWiql
| HttpGetWorkItem (work_item_id : Z)
| SqlDelete (i : Z)
| SqlInsertOrReplace (row : WorkItem)
| StError
| StWarning (work_item_id : Z)
| PlaceholderNew
| StInfo (m : Message)
| PlaceholderEmpty
| Sleep (seconds : nat).

(** ** The monad *)

Record Run (A : Type) := MkRun {
  returned : A;
  cache : Table;
  trace : list Event
}.
Arguments MkRun {A} _ _ _.
Arguments returned {A} _.
Arguments cache {A} _.
Arguments trace {A} _.

Definition Sync (A : Type) : Type := Table → Run A.

Definition sync_ret {A} (a : A) : Sync A := λ db, MkRun a db [].

Definition sync_bind {A B} (m : Sync A) (k : A → Sync B) : Sync B :=
  λ db,
    let r1 := m db in
    let r2 := k (returned r1) (cache r1) in
    MkRun (returned r2) (cache r2) (trace r1 ++ trace r2).

Declare Scope sync_scope.
Delimit Scope sync_scope with sync.
Bind Scope sync_scope with Sync.
Notation "x ← y ; z" := (sync_bind y (λ x, z))
  (at level 20, y at level 100, z at level 200, only parsing) : sync_scope.
Notation "y ;; z" := (sync_bind y (λ _, z))
  (at level 100, z at level 200, only parsing, right associativity) : sync_scope.
Open Scope sync_scope.

Definition emit (e : Event) : Sync unit := λ db, MkRun () db [e].

Fixpoint for_each {A} (l : list A) (body : A → Sync unit) : Sync unit :=
  match l with
  | [] => sync_ret ()
  | x :: rest => body x ;; for_each rest body
  end.

(** ** The local cache (lines 62-102) *)

(** [SELECT * FROM work_items]: every row once, in the order of the store
    (sqlite promises none without ORDER BY; no statement below depends on
    it). *)
Definition rows_of (db : Table) : DataFrame :=
  (λ kc, row_of kc.1 kc.2) <$> map_to_list db.

Definition load_data_from_db : Sync DataFrame :=
  λ db, MkRun (rows_of db) db [].

Definition load_ids_from_db : Sync (gset Z) :=
  λ db, MkRun (dom db) db [].

Definition execute_delete (i : Z) : Sync unit :=
  λ db, MkRun () (delete i db) [SqlDelete i].

Definition delete_ids_from_db (ids_to_delete : gset Z) : Sync unit :=
  if decide (ids_to_delete = ∅) then sync_ret ()
  else for_each (elements ids_to_delete) execute_delete.

Definition execute_insert_or_replace (row : WorkItem) : Sync unit :=
  λ db, MkRun () (<[Id row := cols_of row]> db) [SqlInsertOrReplace row].

Definition save_data_to_db (df : DataFrame) : Sync unit :=
  for_each df execute_insert_or_replace.

(** ** The remote calls (lines 105-160) *)

Definition get_work_item_ids_from_devops (rem : Remote) : Sync (list Z) :=
  emit HttpPostWiql ;;
  match wiql rem with
  | Some work_item_ids => sync_ret work_item_ids
  | None => emit StError ;; sync_ret []
  end.

Fixpoint details_loop (rem : Remote) (work_item_ids : list Z)
    (work_items_data : DataFrame) : Sync DataFrame :=
  match work_item_ids with
  | [] => sync_ret work_items_data
  | work_item_id :: rest =>
      emit (HttpGetWorkItem work_item_id) ;;
      match workitem rem work_item_id with
      | Some row_data => details_loop rem rest (work_items_data ++ [row_data])
      | None =>
          emit (StWarning work_item_id) ;;
          details_loop rem rest work_items_data
      end
  end.

Definition get_work_items_details_from_devops (rem : Remote)
    (work_item_ids : list Z) : Sync DataFrame :=
  details_loop rem work_item_ids [].

(** ** pandas: [drop_duplicates(subset=["Id"])], which keeps the first row of
    every identifier (the default [keep="first"]) *)

Fixpoint drop_duplicates_from (seen : list Z) (df : DataFrame) : DataFrame :=
  match df with
  | [] => []
  | row :: rest =>
      if bool_decide (Id row ∈ seen) then drop_duplicates_from seen rest
      else row :: drop_duplicates_from (Id row :: seen) rest
  end.

Definition drop_duplicates (df : DataFrame) : DataFrame :=
  drop_duplicates_from [] df.

(** The merge of line 189. *)
Definition combine (old_data new_data : DataFrame) : DataFrame :=
  drop_duplicates (old_data ++ new_data).

(** ** The reconciler (lines 163-194) *)

Definition get_updated_work_items (rem : Remote) : Sync DataFrame :=
  all_ids ← get_work_item_ids_from_devops rem;
  match all_ids with
  | [] => sync_ret []
  | _ :: _ =>
      existing_ids ← load_ids_from_db;
      let ids_to_delete := existing_ids ∖ list_to_set all_ids in
      delete_ids_from_db ids_to_delete ;;
      let new_ids := filter (λ wid, wid ∉ existing_ids) all_ids in
      emit PlaceholderNew ;;
      match new_ids with
      | [] =>
          emit (StInfo NoNewWorkItems) ;;
          emit (Sleep 4) ;;
          emit PlaceholderEmpty ;;
          load_data_from_db
      | _ :: _ =>
          emit (StInfo (Downloading (length new_ids))) ;;
          new_data ← get_work_items_details_from_devops rem new_ids;
          match new_data with
          | [] => emit PlaceholderEmpty ;; load_data_from_db
          | _ :: _ =>
              old_data ← load_data_from_db;
              let combined_data := combine old_data new_data in
              save_data_to_db combined_data ;;
              emit PlaceholderEmpty ;;
              sync_ret combined_data
          end
      end
  end.

(** ** Vocabulary of the statements *)

(** The first row of a DataFrame with a given identifier. *)
Fixpoint find_row (k : Z) (df : DataFrame) : option WorkItem :=
  match df with
  | [] => None
  | row :: rest => if decide (Id row = k) then Some row else find_row k rest
  end.

(** The identifiers the routine asks the details of: those listed remotely
    and absent from the cache (line 173). *)
Definition to_fetch (all_ids : list Z) (db : Table) : list Z :=
  filter (λ wid, wid ∉ dom db) all_ids.

(** The detail request for [i] succeeds: the service answers the record of
    the identifier asked. *)
Definition fetch_ok (rem : Remote) (i : Z) : Prop :=
  Id <$> workitem rem i = Some i.

(** The detail request for [i] fails: the request raises. *)
Definition fetch_fails (rem : Remote) (i : Z) : Prop :=
  workitem rem i = None.

(** Sample values. *)
Definition blank (k : Z) : WorkItem :=
  {| Id := k; WorkItemType := None; Title := None; AssignedTo := None;
     State := None; Tags := None; StartDate := None; TargetDate := None |}.

Definition titled (k : Z) (t : string) : WorkItem :=
  {| Id := k; WorkItemType := Some "Product Backlog Item"%string;
     Title := Some t; AssignedTo := None; State := Some "New"%string;
     Tags := None; StartDate := None; TargetDate := None |}.

Definition table_of (df : DataFrame) : Table :=
  list_to_map ((λ row, (Id row, cols_of row)) <$> df).

(** The rows the detail loop collects for a list of identifiers: the answers
    of the requests that did not raise, in order (lines 139-160). *)
Definition collected (rem : Remote) (work_item_ids : list Z) : DataFrame :=
  omap (workitem rem) work_item_ids.

(** What one iteration of the detail loop does to the outside: the request,
    and the warning when it raised (lines 141-159). *)
Definition calls (rem : Remote) (i : Z) : list Event :=
  HttpGetWorkItem i ::
    match workitem rem i with Some _ => [] | None => [StWarning i] end.

(** Equality of rows, columns and events is decidable. *)
#[global] Instance Cols_eq_dec : EqDecision Cols.
Proof. solve_decision. Defined.

#[global] Instance WorkItem_eq_dec : EqDecision WorkItem.
Proof. solve_decision. Defined.

#[global] Instance Message_eq_dec : EqDecision Message.
Proof. solve_decision. Defined.

#[global] Instance Event_eq_dec : EqDecision Event.
Proof. solve_decision. Defined.

#[global] Instance fetch_ok_dec rem i : Decision (fetch_ok rem i) :=
  decide (Id <$> workitem rem i = Some i).

#[global] Instance fetch_fails_dec rem i : Decision (fetch_fails rem i) :=
  decide (workitem rem i = None).

(** A service that answers [listing] to the query and holds [rows]: the
    detail request of an identifier answers its row, and raises when there
    is none. *)
Definition remote_of (listing : option (list Z)) (rows : DataFrame) : Remote :=
  {| wiql := listing; workitem := λ i, find_row i rows |}.

(** A cache of three rows, and services that list some of them. *)
Definition three_rows : Table :=
  table_of [titled 1 "one"; titled 2 "two"; titled 3 "three"].

Definition service_down : Remote := remote_of None [].

Definition service_empty : Remote := remote_of (Some []) [].

Definition service_234 : Remote :=
  remote_of (Some [2; 3; 4])
    [titled 2 "two, renamed"; titled 3 "three"; titled 4 "four"].

(** The same listing with two more identifiers, the detail request of [5]
    raising. *)
Definition service_23456 : Remote :=
  remote_of (Some [2; 3; 4; 5; 6])
    [titled 2 "two"; titled 3 "three"; titled 4 "four"; titled 6 "six"].

(** ** Reading a trace *)

(** The identifiers of the detail requests of a trace, in order of
    occurrence; likewise of its warnings and of its deletes, and the rows of
    its writes. *)
Definition requests_of (t : list Event) : list Z :=
  omap (λ e, match e with HttpGetWorkItem i => Some i | _ => None end) t.

Definition warnings_of (t : list Event) : list Z :=
  omap (λ e, match e with StWarning i => Some i | _ => None end) t.

Definition deletes_of (t : list Event) : list Z :=
  omap (λ e, match e with SqlDelete i => Some i | _ => None end) t.

Definition writes_of (t : list Event) : DataFrame :=
  omap (λ e, match e with SqlInsertOrReplace row => Some row | _ => None end) t.

(** ** App start (lines 306-340) *)

(** [CREATE TABLE IF NOT EXISTS] (lines 46-59): a table that exists is kept
    with its rows, a missing one is created without rows.  [None] is the
    database before the first launch. *)
Definition initialize_db (disk : option Table) : Table :=
  match disk with
  | Some db => db
  | None => ∅
  end.

(** The data of the page (lines 314-322).  [initialize_db] has run at line
    308 and has created the file, so the test [not os.path.exists(DB_FILE)]
    of line 317 is false: what decides is whether the table has rows. *)
Definition app_data (refresh : bool) (rem : Remote) : Sync DataFrame :=
  if refresh then get_updated_work_items rem
  else
    cached ← load_data_from_db;
    match cached with
    | [] => get_updated_work_items rem
    | _ :: _ => load_data_from_db
    end.

Definition app_start (refresh : bool) (rem : Remote) (disk : option Table)
    : Run DataFrame :=
  app_data refresh rem (initialize_db disk).

(** The two tables of the page (lines 329 and 336).  pandas compares a
    missing [State] unequal to every string, so a row without state is a
    task to close. *)
Definition completed_by_you (data : DataFrame) : DataFrame :=
  filter (λ row, State row = Some "Done"%string) data.

Definition to_be_closed_by_you (data : DataFrame) : DataFrame :=
  filter (λ row, State row ≠ Some "Done"%string) data.

(** * Properties *)

(** ** Rows and columns *)

Lemma cols_of_row_of k c : cols_of (row_of k c) = c.
Proof. by destruct c. Qed.

Lemma Id_row_of k c : Id (row_of k c) = k.
Proof. done. Qed.

Lemma row_of_cols_of row : row_of (Id row) (cols_of row) = row.
Proof. by destruct row. Qed.

(** ** The loops *)

Ltac sync_step :=
  repeat (progress (
    unfold sync_bind, sync_ret, emit, execute_delete,
      execute_insert_or_replace, load_data_from_db, load_ids_from_db;
    cbn [for_each returned cache trace])).

Section loops.
Implicit Types (db : Table) (df : DataFrame) (k i : Z) (l : list Z).

Lemma for_each_delete_lookup l db k :
  cache (for_each l execute_delete db) !! k
  = if decide (k ∈ l) then None else db !! k.
Proof.
  revert db; induction l as [|i l IH]; intros db; sync_step.
  - case_decide; [set_solver | done].
  - rewrite IH. destruct (decide (i = k)) as [->|Hne].
    + rewrite lookup_delete_eq. repeat case_decide; set_solver.
    + rewrite lookup_delete_ne by done. repeat case_decide; set_solver.
Qed.

Lemma for_each_delete_trace l db :
  trace (for_each l execute_delete db) = SqlDelete <$> l.
Proof.
  revert db; induction l as [|i l IH]; intros db; sync_step; [done|].
  by rewrite IH.
Qed.

Lemma delete_ids_lookup (ids : gset Z) db k :
  cache (delete_ids_from_db ids db) !! k
  = if decide (k ∈ ids) then None else db !! k.
Proof.
  unfold delete_ids_from_db. destruct (decide (ids = ∅)) as [->|_].
  - sync_step. case_decide; [set_solver | done].
  - rewrite for_each_delete_lookup. repeat case_decide; set_solver.
Qed.

Lemma delete_ids_trace (ids : gset Z) db e :
  e ∈ trace (delete_ids_from_db ids db) → ∃ i, e = SqlDelete i ∧ i ∈ ids.
Proof.
  unfold delete_ids_from_db. destruct (decide (ids = ∅)) as [->|_].
  - sync_step. set_solver.
  - rewrite for_each_delete_trace. intros (i & -> & Hi)%list_elem_of_fmap.
    exists i. set_solver.
Qed.

Lemma delete_ids_none db : delete_ids_from_db ∅ db = MkRun () db [].
Proof. unfold delete_ids_from_db. by rewrite decide_True. Qed.

Lemma find_row_Some k df row : find_row k df = Some row → Id row = k ∧ row ∈ df.
Proof.
  induction df as [|r df IH]; simpl; [done|].
  case_decide; [intros [= <-]; set_solver | set_solver].
Qed.

Lemma find_row_None k df : find_row k df = None ↔ k ∉ Id <$> df.
Proof.
  induction df as [|r df IH]; simpl; [set_solver|].
  case_decide; [split; [done | set_solver] | set_solver].
Qed.

Lemma find_row_app k df1 df2 :
  find_row k (df1 ++ df2)
  = match find_row k df1 with Some row => Some row | None => find_row k df2 end.
Proof. induction df1 as [|r df1 IH]; simpl; [done|]. by case_decide. Qed.

Lemma save_lookup df db k :
  NoDup (Id <$> df) →
  cache (save_data_to_db df db) !! k
  = match find_row k df with Some row => Some (cols_of row) | None => db !! k end.
Proof.
  unfold save_data_to_db.
  revert db; induction df as [|r df IH]; intros db Hnd; sync_step; [done|].
  apply NoDup_cons in Hnd as [Hr Hnd]. rewrite IH by done. simpl.
  case_decide as Hk.
  - subst k. apply find_row_None in Hr. rewrite Hr. by rewrite lookup_insert_eq.
  - by rewrite lookup_insert_ne.
Qed.

Lemma save_trace df db :
  trace (save_data_to_db df db) = SqlInsertOrReplace <$> df.
Proof.
  unfold save_data_to_db.
  revert db; induction df as [|r df IH]; intros db; sync_step; [done|].
  by rewrite IH.
Qed.
End loops.

Section pandas.
Implicit Types (db : Table) (df : DataFrame) (k i : Z) (seen : list Z).

Lemma drop_duplicates_from_find seen df k :
  find_row k (drop_duplicates_from seen df)
  = if decide (k ∈ seen) then None else find_row k df.
Proof.
  revert seen; induction df as [|r df IH]; intros seen; simpl.
  - by case_decide.
  - case_bool_decide as Hseen; simpl; rewrite IH.
    + repeat case_decide; set_solver.
    + repeat case_decide; set_solver.
Qed.

Lemma drop_duplicates_from_NoDup seen df :
  NoDup (Id <$> drop_duplicates_from seen df).
Proof.
  revert seen; induction df as [|r df IH]; intros seen; simpl.
  - constructor.
  - case_bool_decide as Hseen; [done|]. rewrite fmap_cons.
    constructor; [|done].
    apply find_row_None. rewrite drop_duplicates_from_find.
    rewrite decide_True; set_solver.
Qed.

Lemma combine_find old_data new_data k :
  find_row k (combine old_data new_data)
  = match find_row k old_data with
    | Some row => Some row
    | None => find_row k new_data
    end.
Proof.
  unfold combine, drop_duplicates. rewrite drop_duplicates_from_find.
  rewrite decide_False by set_solver. apply find_row_app.
Qed.

Lemma combine_NoDup old_data new_data :
  NoDup (Id <$> combine old_data new_data).
Proof. apply drop_duplicates_from_NoDup. Qed.

Lemma Id_rows_of db : Id <$> rows_of db = (map_to_list db).*1.
Proof.
  unfold rows_of. rewrite <- list_fmap_compose. by apply list_fmap_ext.
Qed.

Lemma rows_of_NoDup db : NoDup (Id <$> rows_of db).
Proof. rewrite Id_rows_of. apply NoDup_fst_map_to_list. Qed.

Lemma find_row_pairs (l : list (Z * Cols)) k c :
  NoDup l.*1 → (k, c) ∈ l →
  find_row k ((λ kc, row_of kc.1 kc.2) <$> l) = Some (row_of k c).
Proof.
  induction l as [|[k' c'] l IH]; [set_solver|].
  rewrite fmap_cons. intros [Hk' Hnd]%NoDup_cons Hin. simpl.
  apply elem_of_cons in Hin as [[= <- <-]|Hin].
  - by rewrite decide_True.
  - rewrite decide_False; [by apply IH|].
    intros ->. apply Hk'. apply list_elem_of_fmap. by exists (k, c).
Qed.

Lemma find_row_rows_of db k :
  find_row k (rows_of db) = row_of k <$> db !! k.
Proof.
  destruct (db !! k) as [c|] eqn:Hk; simpl.
  - apply find_row_pairs; [apply NoDup_fst_map_to_list|].
    by apply elem_of_map_to_list.
  - apply find_row_None. rewrite Id_rows_of.
    intros ([k' c] & -> & Hin)%list_elem_of_fmap.
    apply elem_of_map_to_list in Hin. simpl in Hk. congruence.
Qed.
End pandas.

Section remote.
Implicit Types (rem : Remote) (db : Table) (df : DataFrame) (k i : Z).

Lemma collected_cons rem i ids :
  collected rem (i :: ids)
  = match workitem rem i with
    | Some row => row :: collected rem ids
    | None => collected rem ids
    end.
Proof. done. Qed.

Lemma details_loop_run rem ids acc db :
  details_loop rem ids acc db
  = MkRun (acc ++ collected rem ids) db (ids ≫= calls rem).
Proof.
  revert acc; induction ids as [|i ids IH]; intros acc;
    cbn [details_loop]; sync_step.
  - by rewrite app_nil_r.
  - rewrite collected_cons. change ((i :: ids) ≫= calls rem)
      with (calls rem i ++ (ids ≫= calls rem)).
    assert (Hcalls : calls rem i = HttpGetWorkItem i ::
      match workitem rem i with Some _ => [] | None => [StWarning i] end)
      by done.
    rewrite Hcalls; clear Hcalls.
    destruct (workitem rem i) as [row|]; sync_step; rewrite IH; sync_step.
    + by rewrite <- app_assoc.
    + done.
Qed.
End remote.

(** ** The three paths of the reconciler *)

Section paths.
Implicit Types (rem : Remote) (db : Table) (df : DataFrame) (k i : Z).

Lemma run_listing_failed rem db :
  wiql rem = None →
  get_updated_work_items rem db = MkRun [] db [HttpPostWiql; StError].
Proof.
  intros H. unfold get_updated_work_items, get_work_item_ids_from_devops.
  sync_step. rewrite H. by sync_step.
Qed.

Lemma run_listing_empty rem db :
  wiql rem = Some [] →
  get_updated_work_items rem db = MkRun [] db [HttpPostWiql].
Proof.
  intros H. unfold get_updated_work_items, get_work_item_ids_from_devops.
  sync_step. rewrite H. by sync_step.
Qed.

Lemma run_listing_some rem db a R' :
  let R := a :: R' in
  let del := delete_ids_from_db (dom db ∖ list_to_set R) db in
  let db1 := cache del in
  let new_ids := to_fetch R db in
  let new_data := collected rem new_ids in
  let combined_data := combine (rows_of db1) new_data in
  wiql rem = Some R →
  get_updated_work_items rem db =
    match new_ids, new_data with
    | [], _ =>
        MkRun (rows_of db1) db1
          (HttpPostWiql :: trace del ++
           [PlaceholderNew; StInfo NoNewWorkItems; Sleep 4; PlaceholderEmpty])
    | _ :: _, [] =>
        MkRun (rows_of db1) db1
          (HttpPostWiql :: trace del ++
           [PlaceholderNew; StInfo (Downloading (length new_ids))] ++
           (new_ids ≫= calls rem) ++ [PlaceholderEmpty])
    | _ :: _, _ :: _ =>
        MkRun combined_data (cache (save_data_to_db combined_data db1))
          (HttpPostWiql :: trace del ++
           [PlaceholderNew; StInfo (Downloading (length new_ids))] ++
           (new_ids ≫= calls rem) ++
           (SqlInsertOrReplace <$> combined_data) ++ [PlaceholderEmpty])
    end.
Proof.
  intros R del db1 new_ids new_data combined_data H.
  subst combined_data new_data new_ids db1 del R.
  unfold get_updated_work_items, get_work_item_ids_from_devops, to_fetch.
  sync_step. rewrite H. sync_step.
  destruct (filter (λ wid, wid ∉ dom db) (a :: R')) as [|i new_ids] eqn:Hnew;
    sync_step.
  - done.
  - unfold get_work_items_details_from_devops.
    rewrite details_loop_run. sync_step. cbn [app].
    destruct (collected rem (i :: new_ids)) as [|row new_data] eqn:Hdata;
      sync_step.
    + cbn [app]. by rewrite ?app_nil_r.
    + rewrite save_trace. cbn [app]. by rewrite ?app_nil_r.
Qed.
End paths.

(** ** What one reconciliation leaves in the cache and in the trace *)

Section reconcile.
Implicit Types (rem : Remote) (db : Table) (df : DataFrame) (k i : Z)
  (R : list Z).

Lemma pruned_lookup R db k :
  cache (delete_ids_from_db (dom db ∖ list_to_set R) db) !! k
  = if decide (k ∈ R) then db !! k else None.
Proof.
  rewrite delete_ids_lookup.
  destruct (db !! k) as [c|] eqn:Hk.
  - assert (k ∈ dom db) by (apply elem_of_dom; eauto).
    repeat case_decide; set_solver.
  - by repeat case_decide.
Qed.

Lemma elem_of_to_fetch R db i : i ∈ to_fetch R db ↔ i ∈ R ∧ i ∉ dom db.
Proof. unfold to_fetch. rewrite list_elem_of_filter. tauto. Qed.

Lemma find_row_collected rem ids k :
  (∀ i row, i ∈ ids → workitem rem i = Some row → Id row = i) →
  find_row k (collected rem ids)
  = if decide (k ∈ ids) then workitem rem k else None.
Proof.
  induction ids as [|i ids IH]; intros Hown.
  - by case_decide; [set_solver|].
  - rewrite collected_cons.
    assert (IH' := IH (λ i' row Hi', Hown i' row (list_elem_of_further _ _ _ Hi'))).
    destruct (workitem rem i) as [row|] eqn:Hi; cbn [find_row].
    + pose proof (Hown i row (list_elem_of_here _ _) Hi) as Hid.
      rewrite Hid. destruct (decide (i = k)) as [->|Hne].
      * rewrite decide_True by set_solver. done.
      * rewrite IH'. repeat case_decide; set_solver.
    + rewrite IH'. destruct (decide (k = i)) as [->|Hne].
      * rewrite (decide_True (P := i ∈ i :: ids)) by set_solver.
        case_decide; [done | by rewrite Hi].
      * repeat case_decide; set_solver.
Qed.

(** The cache after a reconciliation whose listing answered a non-empty
    list: the rows that were cached and are still listed, as they were, and
    beside them the first row collected for every other identifier. *)
Lemma run_lookup rem db R k :
  wiql rem = Some R → R ≠ [] →
  cache (get_updated_work_items rem db) !! k
  = match (if decide (k ∈ R) then db !! k else None) with
    | Some c => Some c
    | None => cols_of <$> find_row k (collected rem (to_fetch R db))
    end.
Proof.
  intros HR Hne. destruct R as [|a R']; [done|].
  rewrite (run_listing_some rem db a R' HR). cbv zeta.
  rewrite <- pruned_lookup.
  destruct (to_fetch (a :: R') db) as [|i new_ids] eqn:Hnew.
  { cbn [cache collected omap list_omap find_row fmap option_fmap option_map].
    by destruct (_ !! k). }
  destruct (collected rem (i :: new_ids)) as [|row new_data] eqn:Hdata.
  { cbn [cache find_row fmap option_fmap option_map]. by destruct (_ !! k). }
  cbn [cache]. rewrite save_lookup by apply combine_NoDup.
  rewrite combine_find, find_row_rows_of.
  destruct (_ !! k) as [c|]; simpl; [by rewrite cols_of_row_of|].
  by destruct (find_row k (row :: new_data)).
Qed.
End reconcile.

Section traces.
Implicit Types (rem : Remote) (db : Table) (df : DataFrame) (k i : Z)
  (R : list Z) (e : Event).

Lemma elem_of_calls rem ids e :
  e ∈ ids ≫= calls rem ↔
  ∃ i, i ∈ ids ∧ (e = HttpGetWorkItem i ∨ (e = StWarning i ∧ workitem rem i = None)).
Proof.
  rewrite list_elem_of_bind. unfold calls. split.
  - intros (i & He & Hi). exists i. split; [done|].
    destruct (workitem rem i); set_solver.
  - intros (i & Hi & He). exists i. split; [|done].
    destruct He as [->|[-> ->]]; set_solver.
Qed.

(** Every event of a reconciliation, by kind. *)
Lemma run_trace rem db R e :
  wiql rem = Some R →
  e ∈ trace (get_updated_work_items rem db) →
  e = HttpPostWiql ∨ e = PlaceholderNew ∨ e = PlaceholderEmpty
  ∨ e = Sleep 4 ∨ (∃ m, e = StInfo m)
  ∨ (∃ i, e = SqlDelete i ∧ i ∈ dom db ∧ (i ∉ R) ∧ R ≠ [])
  ∨ (∃ i, i ∈ to_fetch R db ∧
          (e = HttpGetWorkItem i ∨ (e = StWarning i ∧ workitem rem i = None)))
  ∨ (∃ row, e = SqlInsertOrReplace row ∧ collected rem (to_fetch R db) ≠ []).
Proof.
  intros HR. destruct R as [|a R'].
  { rewrite (run_listing_empty rem db HR). set_solver. }
  rewrite (run_listing_some rem db a R' HR). cbv zeta.
  assert (Hdel : ∀ e, e ∈ trace (delete_ids_from_db
      (dom db ∖ list_to_set (a :: R')) db) →
      ∃ i, e = SqlDelete i ∧ i ∈ dom db ∧ (i ∉ a :: R') ∧ a :: R' ≠ []).
  { intros e' (i & -> & Hi)%delete_ids_trace. exists i. set_solver. }
  destruct (to_fetch (a :: R') db) as [|i new_ids] eqn:Hnew.
  { cbn [trace]. rewrite elem_of_cons, elem_of_app.
    intros [->|[He%Hdel|He]]; [by left | by do 5 right; left |].
    set_solver. }
  destruct (collected rem (i :: new_ids)) as [|row new_data] eqn:Hdata;
    cbn [trace]; rewrite elem_of_cons, !elem_of_app, elem_of_calls.
  - intros [->|[He%Hdel|[He|[He|He]]]];
      [by left | by do 5 right; left | set_solver | | set_solver].
    do 6 right; left. done.
  - rewrite list_elem_of_fmap.
    intros [->|[He%Hdel|[He|[He|[(row' & -> & _)|He]]]]];
      [by left | by do 5 right; left | set_solver | | | set_solver].
    + do 6 right; left. done.
    + do 7 right. by exists row'.
Qed.

Lemma run_warns rem db R i :
  wiql rem = Some R → i ∈ to_fetch R db → workitem rem i = None →
  StWarning i ∈ trace (get_updated_work_items rem db).
Proof.
  intros HR Hi Hnone. destruct R as [|a R']; [by apply elem_of_nil in Hi|].
  rewrite (run_listing_some rem db a R' HR). cbv zeta.
  assert (StWarning i ∈ to_fetch (a :: R') db ≫= calls rem) as Hin.
  { apply elem_of_calls. exists i. auto. }
  destruct (to_fetch (a :: R') db) as [|i' new_ids] eqn:Hnew;
    [by apply elem_of_nil in Hi|].
  destruct (collected rem (i' :: new_ids)); cbn [trace];
    rewrite elem_of_cons, !elem_of_app; auto.
Qed.
End traces.

(** ** The cache after a reconciliation, when the service answers the
    records it is asked *)

Section outcome.
Implicit Types (rem : Remote) (db : Table) (df : DataFrame) (k i : Z)
  (R : list Z) (e : Event).

Lemma fetch_ok_Id rem i row :
  fetch_ok rem i → workitem rem i = Some row → Id row = i.
Proof. unfold fetch_ok. intros H Hrow. rewrite Hrow in H. by injection H. Qed.

Lemma fetch_ok_Some rem i :
  fetch_ok rem i → ∃ row, workitem rem i = Some row ∧ Id row = i.
Proof.
  unfold fetch_ok. destruct (workitem rem i) as [row|]; [|done].
  intros [= H]. eauto.
Qed.

Lemma answers_own rem ids :
  Forall (λ i, fetch_fails rem i ∨ fetch_ok rem i) ids →
  ∀ i row, i ∈ ids → workitem rem i = Some row → Id row = i.
Proof.
  rewrite Forall_forall. intros H i row Hi Hrow.
  destruct (H i Hi) as [Hf|Hok]; [|by eapply fetch_ok_Id].
  unfold fetch_fails in Hf. congruence.
Qed.

Lemma run_lookup_own rem db R k :
  wiql rem = Some R → R ≠ [] →
  Forall (λ i, fetch_fails rem i ∨ fetch_ok rem i) (to_fetch R db) →
  cache (get_updated_work_items rem db) !! k
  = if decide (k ∈ R) then
      match db !! k with
      | Some c => Some c
      | None => cols_of <$> workitem rem k
      end
    else None.
Proof.
  intros HR Hne Hown. pose proof (answers_own _ _ Hown) as Hid.
  rewrite (run_lookup rem db R k HR Hne).
  rewrite find_row_collected by done.
  destruct (decide (k ∈ R)) as [Hk|Hk].
  - destruct (db !! k) as [c|] eqn:Hc; [done|].
    rewrite decide_True; [done|].
    apply elem_of_to_fetch. split; [done|]. by apply not_elem_of_dom.
  - rewrite decide_False; [done|]. rewrite elem_of_to_fetch. tauto.
Qed.

Lemma run_dom_sub rem db R :
  wiql rem = Some R → R ≠ [] →
  Forall (λ i, fetch_fails rem i ∨ fetch_ok rem i) (to_fetch R db) →
  dom (cache (get_updated_work_items rem db)) ⊆ list_to_set R.
Proof.
  intros HR Hne Hown k [c Hk]%elem_of_dom.
  rewrite (run_lookup_own rem db R k HR Hne Hown) in Hk.
  apply elem_of_list_to_set. by destruct (decide (k ∈ R)).
Qed.

Lemma run_dom rem db R :
  wiql rem = Some R → R ≠ [] →
  Forall (fetch_ok rem) (to_fetch R db) →
  dom (cache (get_updated_work_items rem db)) = list_to_set R.
Proof.
  intros HR Hne Hok.
  assert (Hown : Forall (λ i, fetch_fails rem i ∨ fetch_ok rem i)
                   (to_fetch R db)).
  { eapply Forall_impl; [exact Hok|]. by right. }
  apply set_eq. intros k. rewrite elem_of_dom, elem_of_list_to_set.
  rewrite (run_lookup_own rem db R k HR Hne Hown).
  destruct (decide (k ∈ R)) as [Hk|Hk]; [|split; [by intros [? ?]|done]].
  split; [done|]. intros _.
  destruct (db !! k) as [c|] eqn:Hc; [by eauto|].
  assert (k ∈ to_fetch R db) as Hin.
  { apply elem_of_to_fetch. split; [done|]. by apply not_elem_of_dom. }
  rewrite Forall_forall in Hok.
  destruct (fetch_ok_Some rem k (Hok k Hin)) as (row & -> & _). by eexists.
Qed.

(** A cache whose keys are the listed identifiers is left as it is. *)
Lemma run_settled rem db R :
  wiql rem = Some R → R ≠ [] → dom db = list_to_set R →
  get_updated_work_items rem db
  = MkRun (rows_of db) db
      [HttpPostWiql; PlaceholderNew; StInfo NoNewWorkItems; Sleep 4;
       PlaceholderEmpty].
Proof.
  intros HR Hne Hdom. destruct R as [|a R']; [done|].
  rewrite (run_listing_some rem db a R' HR). cbv zeta.
  assert (to_fetch (a :: R') db = []) as ->.
  { destruct (to_fetch (a :: R') db) as [|i l] eqn:Hf; [done|].
    assert (i ∈ to_fetch (a :: R') db) as Hi by (rewrite Hf; left).
    apply elem_of_to_fetch in Hi as [Hi Hni]. destruct Hni.
    rewrite Hdom. by apply elem_of_list_to_set. }
  assert (dom db ∖ list_to_set (a :: R') = (∅ : gset Z)) as ->.
  { rewrite Hdom. set_solver. }
  by rewrite delete_ids_none.
Qed.
End outcome.

(** * The statements of the specification *)

Ltac by_compute :=
  match goal with
  | |- ?P => apply (bool_decide_unpack P); vm_compute; exact I
  end.

(** C1 (amended).  When the listing answers a non-empty list [R] and every
    detail request for an identifier of [R] that the cache lacks succeeds,
    the keys of [work_items] after [get_updated_work_items] are exactly the
    identifiers of [R]. *)
Theorem cache_keys_equal_listing rem db R :
  wiql rem = Some R → R ≠ [] →
  Forall (fetch_ok rem) (to_fetch R db) →
  dom (cache (get_updated_work_items rem db)) = list_to_set R.
Proof. intros HR Hne Hok. by apply run_dom. Qed.

Lemma cache_keys_equal_listing_witness :
  wiql service_234 = Some [2; 3; 4] ∧ [2; 3; 4] ≠ [] ∧
  Forall (fetch_ok service_234) (to_fetch [2; 3; 4] three_rows) ∧
  dom (cache (get_updated_work_items service_234 three_rows))
  = list_to_set [2; 3; 4].
Proof.
  assert (H1 : wiql service_234 = Some [2; 3; 4]) by reflexivity.
  assert (H2 : [2; 3; 4] ≠ []) by discriminate.
  assert (H3 : Forall (fetch_ok service_234) (to_fetch [2; 3; 4] three_rows))
    by by_compute.
  exact (conj H1 (conj H2 (conj H3
    (cache_keys_equal_listing service_234 three_rows [2; 3; 4] H1 H2 H3)))).
Defined.

(** The listing answers no identifier, no detail request is due, and the
    three cached rows stay: the keys of the cache are not the listed ones. *)
Lemma cache_keys_equal_listing_counterexample :
  wiql service_empty = Some [] ∧
  Forall (fetch_ok service_empty) (to_fetch [] three_rows) ∧
  dom (cache (get_updated_work_items service_empty three_rows))
  ≠ list_to_set [].
Proof.
  split; [reflexivity|]. split; [constructor|]. by_compute.
Qed.

(** C2.  When the listing request raises, [get_updated_work_items] reports
    the error and stops: the cache is the one it was given, and nothing is
    done besides the listing request and the error message, so no row is
    deleted, inserted or replaced. *)
Theorem listing_failure_leaves_cache rem db :
  wiql rem = None →
  let r := get_updated_work_items rem db in
  cache r = db ∧ trace r = [HttpPostWiql; StError] ∧
  (∀ i, SqlDelete i ∉ trace r) ∧ (∀ row, SqlInsertOrReplace row ∉ trace r).
Proof.
  intros H r. subst r. rewrite (run_listing_failed rem db H). cbn [cache trace].
  repeat split; try done; intros x Hx; set_solver.
Qed.

Lemma listing_failure_leaves_cache_witness :
  wiql service_down = None ∧
  cache (get_updated_work_items service_down three_rows) = three_rows ∧
  trace (get_updated_work_items service_down three_rows)
  = [HttpPostWiql; StError] ∧
  (∀ i, SqlDelete i ∉ trace (get_updated_work_items service_down three_rows)) ∧
  (∀ row, SqlInsertOrReplace row
          ∉ trace (get_updated_work_items service_down three_rows)).
Proof.
  assert (H : wiql service_down = None) by reflexivity.
  exact (conj H (listing_failure_leaves_cache service_down three_rows H)).
Defined.

(** C3 (amended).  The merge keeps one row per identifier, and for an
    identifier present among the cached rows and among the fetched rows it
    keeps the cached row; the rows written to the cache are those.  A
    synchronisation asks no detail of an identifier that is cached and still
    listed, so the cache holds afterwards the record it held before, with
    the title it had. *)
Theorem merge_keeps_cached_row rem db R old_data new_data k :
  wiql rem = Some R → k ∈ R → k ∈ dom db →
  let combined_data := combine old_data new_data in
  NoDup (Id <$> combined_data) ∧
  find_row k combined_data
  = match find_row k old_data with
    | Some row => Some row
    | None => find_row k new_data
    end ∧
  cache (save_data_to_db combined_data db) !! k
  = match find_row k combined_data with
    | Some row => Some (cols_of row)
    | None => db !! k
    end ∧
  cache (get_updated_work_items rem db) !! k = db !! k.
Proof.
  intros HR Hk Hdom combined_data. subst combined_data.
  split; [apply combine_NoDup|]. split; [apply combine_find|].
  split; [apply save_lookup, combine_NoDup|].
  rewrite (run_lookup rem db R k HR) by (intros ->; set_solver).
  rewrite decide_True by done.
  apply elem_of_dom in Hdom as [c ->]. done.
Qed.

Lemma merge_keeps_cached_row_witness :
  wiql service_234 = Some [2; 3; 4] ∧ 2 ∈ [2; 3; 4] ∧ 2 ∈ dom three_rows ∧
  NoDup (Id <$> combine [titled 2 "two"] [titled 2 "two, renamed"]) ∧
  find_row 2 (combine [titled 2 "two"] [titled 2 "two, renamed"])
  = match find_row 2 [titled 2 "two"] with
    | Some row => Some row
    | None => find_row 2 [titled 2 "two, renamed"]
    end ∧
  cache (save_data_to_db
           (combine [titled 2 "two"] [titled 2 "two, renamed"]) three_rows) !! 2
  = match find_row 2 (combine [titled 2 "two"] [titled 2 "two, renamed"]) with
    | Some row => Some (cols_of row)
    | None => three_rows !! 2
    end ∧
  cache (get_updated_work_items service_234 three_rows) !! 2 = three_rows !! 2.
Proof.
  assert (H1 : wiql service_234 = Some [2; 3; 4]) by reflexivity.
  assert (H2 : 2 ∈ [2; 3; 4]) by by_compute.
  assert (H3 : 2 ∈ dom three_rows) by by_compute.
  exact (conj H1 (conj H2 (conj H3
    (merge_keeps_cached_row service_234 three_rows [2; 3; 4]
       [titled 2 "two"] [titled 2 "two, renamed"] 2 H1 H2 H3)))).
Defined.

(** The cached title of [2] is "two" and the service holds "two, renamed":
    the merge of the two rows keeps the cached one, and a synchronisation
    with every detail request succeeding leaves the cached title. *)
Lemma merge_keeps_cached_row_counterexample :
  Title <$> find_row 2 (combine [titled 2 "two"] [titled 2 "two, renamed"])
  = Some (Some "two"%string) ∧
  Title <$> workitem service_234 2 = Some (Some "two, renamed"%string) ∧
  Forall (fetch_ok service_234) [2; 3; 4] ∧
  c_Title <$> cache (get_updated_work_items service_234 three_rows) !! 2
  = Some (Some "two"%string).
Proof.
  split; [reflexivity|]. split; [reflexivity|]. split; [by_compute|].
  vm_compute. reflexivity.
Qed.

(** C4.  With the listing unchanged and every detail request of the first
    run succeeding, a second run of [get_updated_work_items] leaves the
    cache of the first run as it is, and performs no delete, no detail
    request and no write. *)
Theorem second_run_changes_nothing rem db R :
  wiql rem = Some R →
  Forall (fetch_ok rem) (to_fetch R db) →
  let r1 := get_updated_work_items rem db in
  let r2 := get_updated_work_items rem (cache r1) in
  cache r2 = cache r1 ∧
  (∀ i, SqlDelete i ∉ trace r2) ∧
  (∀ i, HttpGetWorkItem i ∉ trace r2) ∧
  (∀ row, SqlInsertOrReplace row ∉ trace r2).
Proof.
  intros HR Hok r1 r2. subst r2.
  destruct (decide (R = [])) as [->|Hne].
  - rewrite (run_listing_empty rem (cache r1) HR). cbn [cache trace].
    repeat split; try done; intros x Hx; set_solver.
  - rewrite (run_settled rem (cache r1) R HR Hne) by by apply run_dom.
    cbn [cache trace]. repeat split; try done; intros x Hx; set_solver.
Qed.

Lemma second_run_changes_nothing_witness :
  wiql service_234 = Some [2; 3; 4] ∧
  Forall (fetch_ok service_234) (to_fetch [2; 3; 4] three_rows) ∧
  cache (get_updated_work_items service_234
           (cache (get_updated_work_items service_234 three_rows)))
  = cache (get_updated_work_items service_234 three_rows) ∧
  (∀ i, SqlDelete i ∉ trace (get_updated_work_items service_234
           (cache (get_updated_work_items service_234 three_rows)))) ∧
  (∀ i, HttpGetWorkItem i ∉ trace (get_updated_work_items service_234
           (cache (get_updated_work_items service_234 three_rows)))) ∧
  (∀ row, SqlInsertOrReplace row ∉ trace (get_updated_work_items service_234
           (cache (get_updated_work_items service_234 three_rows)))).
Proof.
  assert (H1 : wiql service_234 = Some [2; 3; 4]) by reflexivity.
  assert (H2 : Forall (fetch_ok service_234) (to_fetch [2; 3; 4] three_rows))
    by by_compute.
  exact (conj H1 (conj H2
    (second_run_changes_nothing service_234 three_rows [2; 3; 4] H1 H2))).
Defined.

(** C5 (amended).  When the listing answers a non-empty list [R] and every
    detail request either raises or answers the record of the identifier it
    was asked, the keys of the cache after [get_updated_work_items] are
    among the identifiers of [R], whichever requests raised: a key that was
    cached and is not listed is gone. *)
Theorem cache_keys_within_listing rem db R :
  wiql rem = Some R → R ≠ [] →
  Forall (λ i, fetch_fails rem i ∨ fetch_ok rem i) (to_fetch R db) →
  let r := get_updated_work_items rem db in
  dom (cache r) ⊆ list_to_set R ∧
  (∀ k, k ∈ dom db → k ∉ R → k ∉ dom (cache r)).
Proof.
  intros HR Hne Hown r. subst r.
  pose proof (run_dom_sub rem db R HR Hne Hown) as Hsub.
  split; [done|]. intros k _ Hk Hin. apply Hsub in Hin. set_solver.
Qed.

Lemma cache_keys_within_listing_witness :
  wiql service_23456 = Some [2; 3; 4; 5; 6] ∧ [2; 3; 4; 5; 6] ≠ [] ∧
  Forall (λ i, fetch_fails service_23456 i ∨ fetch_ok service_23456 i)
    (to_fetch [2; 3; 4; 5; 6] three_rows) ∧
  dom (cache (get_updated_work_items service_23456 three_rows))
  ⊆ list_to_set [2; 3; 4; 5; 6] ∧
  (∀ k, k ∈ dom three_rows → k ∉ [2; 3; 4; 5; 6] →
        k ∉ dom (cache (get_updated_work_items service_23456 three_rows))).
Proof.
  assert (H1 : wiql service_23456 = Some [2; 3; 4; 5; 6]) by reflexivity.
  assert (H2 : [2; 3; 4; 5; 6] ≠ []) by discriminate.
  assert (H3 : Forall
      (λ i, fetch_fails service_23456 i ∨ fetch_ok service_23456 i)
      (to_fetch [2; 3; 4; 5; 6] three_rows)) by by_compute.
  exact (conj H1 (conj H2 (conj H3
    (cache_keys_within_listing service_23456 three_rows [2; 3; 4; 5; 6]
       H1 H2 H3)))).
Defined.

(** The listing answers no identifier: the three cached keys stay, none of
    them listed. *)
Lemma cache_keys_within_listing_counterexample :
  wiql service_empty = Some [] ∧
  1 ∈ dom (cache (get_updated_work_items service_empty three_rows)) ∧
  1 ∉ (list_to_set [] : gset Z).
Proof.
  split; [reflexivity|]. split; by_compute.
Qed.

(** Every event of the detail loop over the identifiers to fetch is an
    event of the reconciliation. *)
Lemma run_calls rem db R e :
  wiql rem = Some R → e ∈ to_fetch R db ≫= calls rem →
  e ∈ trace (get_updated_work_items rem db).
Proof.
  intros HR He. destruct R as [|a R']; [by apply elem_of_nil in He|].
  rewrite (run_listing_some rem db a R' HR). cbv zeta.
  destruct (to_fetch (a :: R') db) as [|i' new_ids] eqn:Hnew;
    [by apply elem_of_nil in He|].
  destruct (collected rem (i' :: new_ids)); cbn [trace];
    rewrite elem_of_cons, !elem_of_app; auto.
Qed.

(** C6.  When the detail request raises for one identifier [j] to fetch and
    succeeds for the others, [j] is warned about and left out of the cache,
    and every other identifier to fetch is requested and its record is in
    the cache afterwards. *)
Theorem failed_fetch_is_skipped rem db R j :
  wiql rem = Some R → j ∈ to_fetch R db → fetch_fails rem j →
  Forall (λ i, i ≠ j → fetch_ok rem i) (to_fetch R db) →
  let r := get_updated_work_items rem db in
  StWarning j ∈ trace r ∧ (j ∉ dom (cache r)) ∧
  (∀ i, i ∈ to_fetch R db → i ≠ j →
     HttpGetWorkItem i ∈ trace r ∧
     ∃ row, workitem rem i = Some row ∧ cache r !! i = Some (cols_of row)).
Proof.
  intros HR Hj Hfail Hok r. subst r.
  assert (Hne : R ≠ []) by (intros ->; by apply elem_of_nil in Hj).
  assert (Hown : Forall (λ i, fetch_fails rem i ∨ fetch_ok rem i)
                   (to_fetch R db)).
  { eapply Forall_impl; [exact Hok|]. intros i Hi. cbv beta in Hi.
    destruct (decide (i = j)) as [->|Hij]; [by left | right; auto]. }
  assert (Hlook := λ k, run_lookup_own rem db R k HR Hne Hown).
  split; [by apply (run_warns rem db R j)|]. split.
  - apply not_elem_of_dom. rewrite Hlook.
    apply elem_of_to_fetch in Hj as [HjR Hjdb].
    rewrite decide_True by done.
    apply not_elem_of_dom in Hjdb. rewrite Hjdb, Hfail. done.
  - intros i Hi Hij. split.
    + apply (run_calls rem db R); [done|]. apply elem_of_calls. eauto.
    + rewrite Forall_forall in Hok.
      destruct (fetch_ok_Some rem i (Hok i Hi Hij)) as (row & Hrow & _).
      exists row. split; [done|]. rewrite Hlook.
      apply elem_of_to_fetch in Hi as [HiR Hidb].
      rewrite decide_True by done.
      apply not_elem_of_dom in Hidb. rewrite Hidb, Hrow. done.
Qed.

Lemma failed_fetch_is_skipped_witness :
  wiql service_23456 = Some [2; 3; 4; 5; 6] ∧
  5 ∈ to_fetch [2; 3; 4; 5; 6] three_rows ∧
  fetch_fails service_23456 5 ∧
  Forall (λ i, i ≠ 5 → fetch_ok service_23456 i)
    (to_fetch [2; 3; 4; 5; 6] three_rows) ∧
  StWarning 5 ∈ trace (get_updated_work_items service_23456 three_rows) ∧
  (5 ∉ dom (cache (get_updated_work_items service_23456 three_rows))) ∧
  (∀ i, i ∈ to_fetch [2; 3; 4; 5; 6] three_rows → i ≠ 5 →
     HttpGetWorkItem i
       ∈ trace (get_updated_work_items service_23456 three_rows) ∧
     ∃ row, workitem service_23456 i = Some row ∧
       cache (get_updated_work_items service_23456 three_rows) !! i
       = Some (cols_of row)).
Proof.
  assert (H1 : wiql service_23456 = Some [2; 3; 4; 5; 6]) by reflexivity.
  assert (H2 : 5 ∈ to_fetch [2; 3; 4; 5; 6] three_rows) by by_compute.
  assert (H3 : fetch_fails service_23456 5) by reflexivity.
  assert (H4 : Forall (λ i, i ≠ 5 → fetch_ok service_23456 i)
                 (to_fetch [2; 3; 4; 5; 6] three_rows)) by by_compute.
  exact (conj H1 (conj H2 (conj H3 (conj H4
    (failed_fetch_is_skipped service_23456 three_rows [2; 3; 4; 5; 6] 5
       H1 H2 H3 H4))))).
Defined.

(** C7 (amended).  When no listed identifier is absent from the cache,
    [get_updated_work_items] makes no detail request and performs no insert
    or replacement.  For a non-empty listing it returns the rows of the
    cache, which holds the records it held for the listed identifiers and
    nothing else; for an empty listing it returns an empty table and leaves
    the cache as it is. *)
Theorem nothing_to_fetch rem db R :
  wiql rem = Some R → to_fetch R db = [] →
  let r := get_updated_work_items rem db in
  (∀ i, HttpGetWorkItem i ∉ trace r) ∧
  (∀ row, SqlInsertOrReplace row ∉ trace r) ∧
  (∀ k, cache r !! k
        = if decide (R = []) then db !! k
          else if decide (k ∈ R) then db !! k else None) ∧
  returned r = if decide (R = []) then [] else rows_of (cache r).
Proof.
  intros HR Hnone r. subst r. split; [|split].
  - intros i Hi. apply (run_trace rem db R _ HR) in Hi.
    rewrite Hnone in Hi. set_solver.
  - intros row Hrow. apply (run_trace rem db R _ HR) in Hrow.
    rewrite Hnone in Hrow. set_solver.
  - destruct (decide (R = [])) as [->|Hne].
    + by rewrite (run_listing_empty rem db HR).
    + split.
      * intros k. rewrite (run_lookup rem db R k HR Hne), Hnone.
        by destruct (decide (k ∈ R)); [destruct (db !! k)|].
      * destruct R as [|a R']; [done|].
        rewrite (run_listing_some rem db a R' HR). cbv zeta.
        by rewrite Hnone.
Qed.

Lemma nothing_to_fetch_witness :
  wiql (remote_of (Some [2; 3]) []) = Some [2; 3] ∧
  to_fetch [2; 3] three_rows = [] ∧
  (∀ i, HttpGetWorkItem i
        ∉ trace (get_updated_work_items (remote_of (Some [2; 3]) [])
                   three_rows)) ∧
  (∀ row, SqlInsertOrReplace row
          ∉ trace (get_updated_work_items (remote_of (Some [2; 3]) [])
                     three_rows)) ∧
  (∀ k, cache (get_updated_work_items (remote_of (Some [2; 3]) [])
                 three_rows) !! k
        = if decide ([2; 3] = []) then three_rows !! k
          else if decide (k ∈ [2; 3]) then three_rows !! k else None) ∧
  returned (get_updated_work_items (remote_of (Some [2; 3]) []) three_rows)
  = if decide ([2; 3] = [])
    then []
    else rows_of (cache (get_updated_work_items (remote_of (Some [2; 3]) [])
                           three_rows)).
Proof.
  assert (H1 : wiql (remote_of (Some [2; 3]) []) = Some [2; 3])
    by reflexivity.
  assert (H2 : to_fetch [2; 3] three_rows = [])
    by (vm_compute; reflexivity).
  exact (conj H1 (conj H2
    (nothing_to_fetch (remote_of (Some [2; 3]) []) three_rows [2; 3] H1 H2))).
Defined.

(** The listing answers no identifier, so none is to fetch: the function
    returns no row, and the cache holds three. *)
Lemma nothing_to_fetch_counterexample :
  wiql service_empty = Some [] ∧ to_fetch [] three_rows = [] ∧
  returned (get_updated_work_items service_empty three_rows) = [] ∧
  length (rows_of (cache (get_updated_work_items service_empty three_rows)))
  = 3%nat.
Proof.
  split; [reflexivity|]. split; [reflexivity|]. split; [reflexivity|].
  vm_compute. reflexivity.
Qed.

(** C8.  When the listing answers no identifier, [get_updated_work_items]
    stops after the listing request: no row is deleted and the cache is the
    one it was given. *)
Theorem empty_listing_deletes_nothing rem db :
  wiql rem = Some [] →
  let r := get_updated_work_items rem db in
  cache r = db ∧ trace r = [HttpPostWiql] ∧ (∀ i, SqlDelete i ∉ trace r).
Proof.
  intros H r. subst r. rewrite (run_listing_empty rem db H). cbn [cache trace].
  repeat split. intros i Hi. set_solver.
Qed.

Lemma empty_listing_deletes_nothing_witness :
  wiql service_empty = Some [] ∧
  cache (get_updated_work_items service_empty three_rows) = three_rows ∧
  trace (get_updated_work_items service_empty three_rows) = [HttpPostWiql] ∧
  (∀ i, SqlDelete i
        ∉ trace (get_updated_work_items service_empty three_rows)).
Proof.
  assert (H : wiql service_empty = Some []) by reflexivity.
  exact (conj H (empty_listing_deletes_nothing service_empty three_rows H)).
Defined.

(** C9.  An identifier that is cached and listed is not asked the details
    of, and its cached record after [get_updated_work_items] is the record
    before, whatever the service holds for it. *)
Theorem cached_item_is_not_refreshed rem db R i :
  wiql rem = Some R → i ∈ R → i ∈ dom db →
  let r := get_updated_work_items rem db in
  (HttpGetWorkItem i ∉ trace r) ∧ cache r !! i = db !! i.
Proof.
  intros HR Hi Hdom r. subst r. split.
  - intros Hin. apply (run_trace rem db R _ HR) in Hin.
    destruct Hin as [?|[?|[?|[?|[[? ?]|[(? & ? & _)|[(i' & Hi' & He)|(? & ? & _)]]]]]]];
      try done.
    apply elem_of_to_fetch in Hi' as [_ Hi'].
    destruct He as [[= <-]|[? _]]; done.
  - rewrite (run_lookup rem db R i HR) by (intros ->; set_solver).
    rewrite decide_True by done.
    apply elem_of_dom in Hdom as [c ->]. done.
Qed.

Lemma cached_item_is_not_refreshed_witness :
  wiql service_234 = Some [2; 3; 4] ∧ 2 ∈ [2; 3; 4] ∧ 2 ∈ dom three_rows ∧
  (HttpGetWorkItem 2
   ∉ trace (get_updated_work_items service_234 three_rows)) ∧
  cache (get_updated_work_items service_234 three_rows) !! 2
  = three_rows !! 2.
Proof.
  assert (H1 : wiql service_234 = Some [2; 3; 4]) by reflexivity.
  assert (H2 : 2 ∈ [2; 3; 4]) by by_compute.
  assert (H3 : 2 ∈ dom three_rows) by by_compute.
  exact (conj H1 (conj H2 (conj H3
    (cached_item_is_not_refreshed service_234 three_rows [2; 3; 4] 2
       H1 H2 H3)))).
Defined.

(** C10.  When the listing request raises or answers no identifier,
    [get_updated_work_items] returns a table without rows and leaves the
    cache as it is, whatever the cache holds. *)
Theorem no_listing_returns_no_rows rem db :
  wiql rem = None ∨ wiql rem = Some [] →
  let r := get_updated_work_items rem db in
  returned r = [] ∧ cache r = db.
Proof.
  intros [H|H] r; subst r.
  - by rewrite (run_listing_failed rem db H).
  - by rewrite (run_listing_empty rem db H).
Qed.

Lemma no_listing_returns_no_rows_witness :
  (wiql service_down = None ∨ wiql service_down = Some []) ∧
  returned (get_updated_work_items service_down three_rows) = [] ∧
  cache (get_updated_work_items service_down three_rows) = three_rows.
Proof.
  assert (H : wiql service_down = None ∨ wiql service_down = Some [])
    by (left; reflexivity).
  exact (conj H (no_listing_returns_no_rows service_down three_rows H)).
Defined.

(** * The cache operations on their own *)

Section cache_operations.
Implicit Types (db : Table) (df : DataFrame) (k i : Z) (ids : gset Z).

(** X1.  [delete_ids_from_db] removes the given keys and no other: the keys
    left are those of the table outside the given set, every other row is
    as it was, and one delete is issued per given key. *)
Theorem delete_ids_removes_exactly ids db :
  let r := delete_ids_from_db ids db in
  dom (cache r) = dom db ∖ ids ∧
  (∀ k, k ∉ ids → cache r !! k = db !! k) ∧
  trace r = SqlDelete <$> elements ids.
Proof.
  intros r. subst r. split; [|split].
  - apply set_eq. intros k.
    rewrite elem_of_difference, !elem_of_dom, delete_ids_lookup.
    case_decide; [|tauto]. split; [by intros [? ?] | tauto].
  - intros k Hk. rewrite delete_ids_lookup. by rewrite decide_False.
  - unfold delete_ids_from_db. destruct (decide (ids = ∅)) as [->|_].
    + by rewrite elements_empty.
    + apply for_each_delete_trace.
Qed.

Lemma for_each_insert_lookup df db k :
  cache (for_each df execute_insert_or_replace db) !! k
  = match find_row k (reverse df) with
    | Some row => Some (cols_of row)
    | None => db !! k
    end.
Proof.
  revert db; induction df as [|r df IH]; intros db; sync_step; [done|].
  rewrite IH, reverse_cons, find_row_app. cbn [find_row].
  destruct (find_row k (reverse df)); [done|].
  case_decide as Hk.
  - subst k. by rewrite lookup_insert_eq.
  - by rewrite lookup_insert_ne.
Qed.

(** X2.  [save_data_to_db] writes the rows in order with insert-or-replace:
    of several rows with one identifier the last one stays, rows of other
    identifiers are as they were, and the keys are the former ones and the
    identifiers written. *)
Theorem save_last_row_stays df db :
  let r := save_data_to_db df db in
  (∀ k, cache r !! k
        = match find_row k (reverse df) with
          | Some row => Some (cols_of row)
          | None => db !! k
          end) ∧
  dom (cache r) = dom db ∪ list_to_set (Id <$> df).
Proof.
  intros r. subst r. unfold save_data_to_db.
  split; [intros k; apply for_each_insert_lookup|].
  apply set_eq. intros k.
  rewrite elem_of_union, !elem_of_dom, for_each_insert_lookup.
  rewrite elem_of_list_to_set.
  destruct (find_row k (reverse df)) as [row|] eqn:Hrow.
  - apply find_row_Some in Hrow as [<- Hin]. rewrite elem_of_reverse in Hin.
    split; [|by eauto]. intros _. right. apply list_elem_of_fmap. eauto.
  - apply find_row_None in Hrow. rewrite fmap_reverse in Hrow.
    rewrite elem_of_reverse in Hrow. tauto.
Qed.

(** X3.  Saving the rows loaded from one table into another one writes the
    first table over the second: into an empty table, or into the table the
    rows came from, the result is the table loaded. *)
Theorem save_loaded_rows db db' :
  cache (save_data_to_db (returned (load_data_from_db db)) db') = db ∪ db' ∧
  cache (save_data_to_db (returned (load_data_from_db db)) ∅) = db ∧
  cache (save_data_to_db (returned (load_data_from_db db)) db) = db.
Proof.
  assert (H : ∀ d, cache (save_data_to_db (rows_of db) d) = db ∪ d).
  { intros d. apply map_eq. intros k.
    rewrite save_lookup by apply rows_of_NoDup.
    rewrite find_row_rows_of, lookup_union.
    destruct (db !! k) as [c|]; simpl.
    - rewrite cols_of_row_of. by destruct (d !! k).
    - by destruct (d !! k). }
  cbn [load_data_from_db returned]. rewrite !H.
  split; [done|]. split; [apply (right_id ∅ (∪)) | apply map_union_idemp].
Qed.

(** X4.  The rows loaded carry every key of the table once, and their
    identifiers are the set [load_ids_from_db] answers; neither statement
    writes. *)
Theorem loaded_ids_are_the_keys db :
  NoDup (Id <$> returned (load_data_from_db db)) ∧
  list_to_set (Id <$> returned (load_data_from_db db))
  = returned (load_ids_from_db db) ∧
  cache (load_data_from_db db) = db ∧ trace (load_data_from_db db) = [] ∧
  cache (load_ids_from_db db) = db ∧ trace (load_ids_from_db db) = [].
Proof.
  cbn [load_data_from_db load_ids_from_db returned cache trace].
  split; [apply rows_of_NoDup|]. split; [|done].
  apply set_eq. intros k. rewrite elem_of_list_to_set, elem_of_dom.
  destruct (db !! k) as [c|] eqn:Hk.
  - split; [by eauto|]. intros _.
    destruct (decide (k ∈ Id <$> rows_of db)) as [|Hn]; [done|].
    apply find_row_None in Hn. by rewrite find_row_rows_of, Hk in Hn.
  - split; [|by intros [? ?]]. intros Hin.
    assert (find_row k (rows_of db) = None) as Hn
      by (by rewrite find_row_rows_of, Hk).
    by apply find_row_None in Hn.
Qed.
End cache_operations.

(** * The detail loop and the merge on their own *)

Section loop_and_merge.
Implicit Types (rem : Remote) (db : Table) (df : DataFrame) (k i : Z)
  (ids seen : list Z).

Lemma requests_of_app t1 t2 :
  requests_of (t1 ++ t2) = requests_of t1 ++ requests_of t2.
Proof. apply omap_app. Qed.

Lemma warnings_of_app t1 t2 :
  warnings_of (t1 ++ t2) = warnings_of t1 ++ warnings_of t2.
Proof. apply omap_app. Qed.

Lemma deletes_of_app t1 t2 :
  deletes_of (t1 ++ t2) = deletes_of t1 ++ deletes_of t2.
Proof. apply omap_app. Qed.

Lemma writes_of_app t1 t2 :
  writes_of (t1 ++ t2) = writes_of t1 ++ writes_of t2.
Proof. apply omap_app. Qed.

Lemma requests_of_calls rem ids : requests_of (ids ≫= calls rem) = ids.
Proof.
  induction ids as [|i ids IH]; [done|].
  change ((i :: ids) ≫= calls rem) with (calls rem i ++ (ids ≫= calls rem)).
  rewrite requests_of_app, IH. unfold calls. by destruct (workitem rem i).
Qed.

Lemma warnings_of_calls rem ids :
  warnings_of (ids ≫= calls rem) = filter (fetch_fails rem) ids.
Proof.
  induction ids as [|i ids IH]; [done|].
  change ((i :: ids) ≫= calls rem) with (calls rem i ++ (ids ≫= calls rem)).
  rewrite warnings_of_app, IH, filter_cons. unfold calls.
  destruct (decide (fetch_fails rem i)) as [Hf|Hf]; unfold fetch_fails in Hf.
  - by rewrite Hf.
  - by destruct (workitem rem i).
Qed.

Lemma deletes_of_calls rem ids : deletes_of (ids ≫= calls rem) = [].
Proof.
  induction ids as [|i ids IH]; [done|].
  change ((i :: ids) ≫= calls rem) with (calls rem i ++ (ids ≫= calls rem)).
  rewrite deletes_of_app, IH. unfold calls. by destruct (workitem rem i).
Qed.

Lemma writes_of_calls rem ids : writes_of (ids ≫= calls rem) = [].
Proof.
  induction ids as [|i ids IH]; [done|].
  change ((i :: ids) ≫= calls rem) with (calls rem i ++ (ids ≫= calls rem)).
  rewrite writes_of_app, IH. unfold calls. by destruct (workitem rem i).
Qed.

Lemma collected_length rem ids :
  (length (collected rem ids) + length (filter (fetch_fails rem) ids)
   = length ids)%nat.
Proof.
  induction ids as [|i ids IH]; [done|].
  rewrite collected_cons, filter_cons.
  destruct (decide (fetch_fails rem i)) as [Hf|Hf]; unfold fetch_fails in Hf.
  - rewrite Hf. simpl. lia.
  - destruct (workitem rem i); [simpl; lia | done].
Qed.

(** X5.  [get_work_items_details_from_devops] asks the details of every
    identifier once, in the order given, and never touches the cache; it
    warns about the identifiers whose request raised and returns the rows
    of the others, in order, so rows and warnings add up to the identifiers
    given. *)
Theorem detail_loop_asks_each_once rem ids db :
  let r := get_work_items_details_from_devops rem ids db in
  cache r = db ∧
  requests_of (trace r) = ids ∧
  warnings_of (trace r) = filter (fetch_fails rem) ids ∧
  returned r = omap (workitem rem) ids ∧
  (length (returned r) + length (warnings_of (trace r)) = length ids)%nat.
Proof.
  intros r. subst r. unfold get_work_items_details_from_devops.
  rewrite details_loop_run. cbn [cache trace returned app].
  rewrite requests_of_calls, warnings_of_calls.
  repeat split. apply collected_length.
Qed.

Lemma drop_duplicates_from_id seen df :
  NoDup (Id <$> df) → (∀ k, k ∈ seen → k ∉ Id <$> df) →
  drop_duplicates_from seen df = df.
Proof.
  revert seen; induction df as [|r df IH]; intros seen Hnd Hseen; [done|].
  rewrite fmap_cons in Hnd. apply NoDup_cons in Hnd as [Hr Hnd].
  cbn [drop_duplicates_from]. rewrite bool_decide_eq_false_2.
  - f_equal. apply IH; [done|]. intros k [->|Hk]%elem_of_cons; [done|].
    specialize (Hseen k Hk). set_solver.
  - intros Hin. apply (Hseen _ Hin). set_solver.
Qed.

Lemma drop_duplicates_from_sublist seen df :
  sublist (drop_duplicates_from seen df) df.
Proof.
  revert seen; induction df as [|r df IH]; intros seen; simpl; [done|].
  case_bool_decide; [by apply sublist_cons | by apply sublist_skip].
Qed.

(** X6.  [drop_duplicates(subset=["Id"])] keeps the first row of every
    identifier and drops the later ones: the result has one row per
    identifier, the first row of an identifier is the one of the input, the
    rows kept stand in their order, and dropping again changes nothing. *)
Theorem drop_duplicates_keeps_first df :
  NoDup (Id <$> drop_duplicates df) ∧
  (∀ k, find_row k (drop_duplicates df) = find_row k df) ∧
  sublist (drop_duplicates df) df ∧
  drop_duplicates (drop_duplicates df) = drop_duplicates df.
Proof.
  unfold drop_duplicates.
  pose proof (drop_duplicates_from_NoDup [] df) as Hnd.
  split; [done|]. split.
  - intros k. rewrite drop_duplicates_from_find. by rewrite decide_False by set_solver.
  - split; [apply drop_duplicates_from_sublist|].
    apply drop_duplicates_from_id; [done|]. by intros k Hk%elem_of_nil.
Qed.

Lemma drop_duplicates_from_prefix seen df1 df2 :
  drop_duplicates_from seen df1
  `prefix_of` drop_duplicates_from seen (df1 ++ df2).
Proof.
  revert seen; induction df1 as [|r df1 IH]; intros seen;
    [apply prefix_nil|].
  cbn [app drop_duplicates_from].
  case_bool_decide; [apply IH | apply prefix_cons, IH].
Qed.

(** X7.  The merge never loses an identifier: the identifiers of the
    merged table are those of the cached rows and those of the fetched
    rows, and the merged table starts with the cached rows, each identifier
    once. *)
Theorem combine_keeps_every_id old_data new_data :
  list_to_set (Id <$> combine old_data new_data)
  =@{gset Z} list_to_set (Id <$> old_data) ∪ list_to_set (Id <$> new_data) ∧
  drop_duplicates old_data `prefix_of` combine old_data new_data.
Proof.
  split; [|apply drop_duplicates_from_prefix].
  apply set_eq. intros k.
  rewrite elem_of_union, !elem_of_list_to_set.
  pose proof (combine_find old_data new_data k) as Hfind.
  pose proof (find_row_None k (combine old_data new_data)) as H1.
  pose proof (find_row_None k old_data) as H2.
  pose proof (find_row_None k new_data) as H3.
  destruct (decide (k ∈ Id <$> old_data));
    destruct (decide (k ∈ Id <$> new_data));
    destruct (decide (k ∈ Id <$> combine old_data new_data));
    destruct (find_row k (combine old_data new_data)),
      (find_row k old_data), (find_row k new_data); naive_solver.
Qed.
End loop_and_merge.

(** * The requests, deletes and writes of a reconciliation *)

Section effects.
Implicit Types (rem : Remote) (db : Table) (df : DataFrame) (k i j : Z)
  (R ids : list Z) (e : Event).

Lemma delete_ids_trace_eq (s : gset Z) db :
  trace (delete_ids_from_db s db) = SqlDelete <$> elements s.
Proof.
  unfold delete_ids_from_db. destruct (decide (s = ∅)) as [->|_].
  - by rewrite elements_empty.
  - apply for_each_delete_trace.
Qed.

Lemma requests_of_deletes ids : requests_of (SqlDelete <$> ids) = [].
Proof. by induction ids. Qed.

Lemma writes_of_deletes ids : writes_of (SqlDelete <$> ids) = [].
Proof. by induction ids. Qed.

Lemma deletes_of_deletes ids : deletes_of (SqlDelete <$> ids) = ids.
Proof. induction ids as [|i ids IH]; [done|]. simpl. by f_equal. Qed.

Lemma requests_of_writes df : requests_of (SqlInsertOrReplace <$> df) = [].
Proof. by induction df. Qed.

Lemma deletes_of_writes df : deletes_of (SqlInsertOrReplace <$> df) = [].
Proof. by induction df. Qed.

Lemma writes_of_writes df : writes_of (SqlInsertOrReplace <$> df) = df.
Proof. induction df as [|r df IH]; [done|]. simpl. by f_equal. Qed.

Ltac project_trace :=
  cbn [trace];
  repeat match goal with
  | |- context [?e :: ?t ++ ?u] => change (e :: t ++ u) with ([e] ++ t ++ u)
  end;
  rewrite ?requests_of_app, ?deletes_of_app, ?writes_of_app,
    ?delete_ids_trace_eq, ?requests_of_deletes, ?writes_of_deletes,
    ?deletes_of_deletes, ?requests_of_writes, ?deletes_of_writes,
    ?writes_of_writes, ?requests_of_calls, ?deletes_of_calls,
    ?writes_of_calls;
  cbn [requests_of deletes_of writes_of omap list_omap app];
  rewrite ?app_nil_r.

Lemma run_requests rem db R :
  wiql rem = Some R →
  requests_of (trace (get_updated_work_items rem db)) = to_fetch R db.
Proof.
  intros HR. destruct R as [|a R'].
  { by rewrite (run_listing_empty rem db HR). }
  rewrite (run_listing_some rem db a R' HR). cbv zeta.
  destruct (to_fetch (a :: R') db) as [|i new_ids] eqn:Hnew;
    [by project_trace|].
  destruct (collected rem (i :: new_ids)); by project_trace.
Qed.

Lemma run_deletes rem db R :
  wiql rem = Some R → R ≠ [] →
  deletes_of (trace (get_updated_work_items rem db))
  = elements (dom db ∖ list_to_set R).
Proof.
  intros HR Hne. destruct R as [|a R']; [done|].
  rewrite (run_listing_some rem db a R' HR). cbv zeta.
  destruct (to_fetch (a :: R') db) as [|i new_ids] eqn:Hnew;
    [by project_trace|].
  destruct (collected rem (i :: new_ids)); by project_trace.
Qed.

Lemma run_writes rem db R :
  wiql rem = Some R →
  writes_of (trace (get_updated_work_items rem db))
  = match collected rem (to_fetch R db) with
    | [] => []
    | _ :: _ => returned (get_updated_work_items rem db)
    end.
Proof.
  intros HR. destruct R as [|a R'].
  { by rewrite (run_listing_empty rem db HR). }
  rewrite (run_listing_some rem db a R' HR). cbv zeta.
  destruct (to_fetch (a :: R') db) as [|i new_ids] eqn:Hnew;
    [by project_trace|].
  destruct (collected rem (i :: new_ids)); by project_trace.
Qed.
End effects.
